(** * pybondi.repository: the identity-map unit of work

    A shallow embedding of [src/pybondi/repository.py] and the properties of
    its [add] / [commit] / [rollback] operations.

    - Python objects are shared by reference: an aggregate is an address
      ([ref]) into a heap, and the identity map holds addresses, so that a
      mutation made by the caller after [add] is seen through the map.
    - [self.aggregates] is a Python [dict]: insertion ordered, assignment to a
      present key replaces the value in place.  It is an association list
      updated by [dict_setitem].
    - A Python call either returns or raises, and what it did to the objects
      before raising stays done: computations are functions
      [State -> State * Result A].
    - [store] and [restore] are abstract methods; they are the fields of an
      [Adapter], a variable of the development.  An adapter acts on the
      environment (the aggregates on the heap and its own storage medium);
      it is not given the coordinator's identity map.
    - Every invocation of an abstract method is recorded in [calls]. *)

From stdpp Require Import base tactics option list functions strings gmap.

(** ** Python values *)

(** An identifier read from [aggregate.root.id]: a [str], or [None]. *)
Definition Ident : Type := option string.

(** The identity of a Python object. *)
Definition ref : Type := nat.

(** Exceptions.  The source raises none itself; these are the names of the
    error taxonomy an adapter may raise. *)
Inductive Exn : Type :=
  | NotFoundError
  | StorageFailure
  | MisuseError
  | PyException (name : string).

Inductive Result (A : Type) : Type :=
  | Ok (a : A)
  | Raise (e : Exn).
Arguments Ok {A} a.
Arguments Raise {A} e.

(** Modelled from the spec: the class [Aggregate] of [pybondi.aggregate] is
    imported by the source but is not part of it.  The source reads only
    [aggregate.root.id]; the rest of the object is its [content]. *)
Module Root.
Record t : Type := Build { id : Ident }.
End Root.

Record Aggregate (Content : Type) : Type :=
  { root : Root.t; content : Content }.
Arguments root {Content} a.
Arguments content {Content} a.

(** ** The dict of the identity map *)

Definition dict : Type := list (Ident * ref).

(** [d[k] = v] *)
Fixpoint dict_setitem (k : Ident) (v : ref) (d : dict) : dict :=
  match d with
  | [] => [(k, v)]
  | (k', v') :: d' =>
      if decide (k' = k) then (k', v) :: d' else (k', v') :: dict_setitem k v d'
  end.

(** [d.get(k)] *)
Fixpoint dict_get (k : Ident) (d : dict) : option ref :=
  match d with
  | [] => None
  | (k', v') :: d' => if decide (k' = k) then Some v' else dict_get k d'
  end.

(** [d.keys()], [d.values()], [len(d)], in iteration order *)
Definition dict_keys (d : dict) : list Ident := d.*1.
Definition dict_values (d : dict) : list ref := d.*2.
Definition dict_len (d : dict) : nat := length d.

(** ** The coordinator *)

Inductive Call : Type :=
  | CallStore (aggregate : ref)
  | CallRestore (aggregate : ref).

Global Instance Call_eq_dec : EqDecision Call.
Proof. solve_decision. Defined.

Section Repository.
Context {Content Storage : Type}.

(** What an adapter can reach: the aggregates and its storage medium. *)
Record Env : Type :=
  { heap : ref → Aggregate Content; storage : Storage }.

(** [aggregates] is [self.aggregates]; [calls] is the record of the
    abstract-method invocations made so far, oldest first. *)
Record State : Type :=
  { aggregates : dict; env : Env; calls : list Call }.

Definition M (A : Type) : Type := State → State * Result A.

Definition ret {A} (a : A) : M A := λ s, (s, Ok a).

Definition bind {A B} (m : M A) (f : A → M B) : M B :=
  λ s, match m s with
       | (s', Ok a) => f a s'
       | (s', Raise e) => (s', Raise e)
       end.

(** [for x in xs: body(x)] *)
Fixpoint for_each (xs : list ref) (body : ref → M unit) : M unit :=
  match xs with
  | [] => ret tt
  | x :: xs' => bind (body x) (λ _, for_each xs' body)
  end.

(** The two abstract methods, as a concrete subclass supplies them. *)
Record Adapter : Type :=
  { store_impl : ref → Env → Env * Result unit;
    restore_impl : ref → Env → Env * Result unit }.

(** The bodies of the abstract methods in the base class are [...]: they
    do nothing and return [None]. *)
Definition Repository_store (aggregate : ref) (e : Env) : Env * Result unit :=
  (e, Ok tt).
Definition Repository_restore (aggregate : ref) (e : Env) : Env * Result unit :=
  (e, Ok tt).

(** A subclass whose overrides only defer to the base class. *)
Definition base_adapter : Adapter :=
  {| store_impl := Repository_store; restore_impl := Repository_restore |}.

(** [Repository.__init__] *)
Definition new (e : Env) : State :=
  {| aggregates := []; env := e; calls := [] |}.

(** [Repository.add]: [self.aggregates[aggregate.root.id] = aggregate] *)
Definition add (aggregate : ref) : M unit :=
  λ s,
    ({| aggregates :=
          dict_setitem (Root.id (root (heap (env s) aggregate))) aggregate
            (aggregates s);
        env := env s;
        calls := calls s |}, Ok tt).

Variable adapter : Adapter.

(** A dispatched call [self.store(aggregate)] / [self.restore(aggregate)]. *)
Definition invoke (c : Call) (impl : Env → Env * Result unit) : M unit :=
  λ s,
    let '(e', res) := impl (env s) in
    ({| aggregates := aggregates s; env := e'; calls := calls s ++ [c] |}, res).

Definition store (aggregate : ref) : M unit :=
  invoke (CallStore aggregate) (store_impl adapter aggregate).

Definition restore (aggregate : ref) : M unit :=
  invoke (CallRestore aggregate) (restore_impl adapter aggregate).

(** [Repository.commit] *)
Definition commit : M unit :=
  λ s, for_each (dict_values (aggregates s)) store s.

(** [Repository.rollback] *)
Definition rollback : M unit :=
  λ s, for_each (dict_values (aggregates s)) restore s.

End Repository.

Arguments Env : clear implicits.
Arguments State : clear implicits.
Arguments Adapter : clear implicits.
Arguments M : clear implicits.

(** ** Callers *)

Section Callers.
Context {Content Storage : Type}.

Implicit Types (s : State Content Storage) (e : Env Content Storage).

(** The two batch operations, for statements that hold of both. *)
Inductive Op : Type := Commit | Rollback.

Definition run (adapter : Adapter Content Storage) (op : Op)
  : M Content Storage unit :=
  match op with
  | Commit => commit adapter
  | Rollback => rollback adapter
  end.

(** The abstract method a batch operation dispatches to. *)
Definition impl_of (adapter : Adapter Content Storage) (op : Op) :
    ref → Env Content Storage → Env Content Storage * Result unit :=
  match op with
  | Commit => store_impl adapter
  | Rollback => restore_impl adapter
  end.

Definition call_of (op : Op) (aggregate : ref) : Call :=
  match op with
  | Commit => CallStore aggregate
  | Rollback => CallRestore aggregate
  end.

(** The abstract-method calls made between the states [s] and [s']. *)
Definition calls_since (s s' : State Content Storage) : list Call :=
  drop (length (calls s)) (calls s').

(** The call returned (it did not raise). *)
Definition completes (out : State Content Storage * Result unit) : Prop :=
  out.2 = Ok tt.

(** A caller that issues one batch operation after the other and goes on
    whether or not one of them raised. *)
Fixpoint run_ops (adapter : Adapter Content Storage) (ops : list Op) s
  : State Content Storage :=
  match ops with
  | [] => s
  | op :: ops' => run_ops adapter ops' (run adapter op s).1
  end.

(** Whatever the caller and the outside world did to the objects since
    the last call: the environment is now [e]. *)
Definition with_env e s : State Content Storage :=
  {| aggregates := aggregates s; env := e; calls := calls s |}.

(** The coordinator [s] with the identity map [d] in place of its own. *)
Definition tracking (d : dict) s : State Content Storage :=
  {| aggregates := d; env := env s; calls := calls s |}.

(** A sequence of [add] calls; each is given with the environment it is
    made in, so that aggregates may change between two calls. *)
Fixpoint adds (steps : list (Env Content Storage * ref)) s
  : State Content Storage :=
  match steps with
  | [] => s
  | (e, aggregate) :: steps' => adds steps' (add aggregate (with_env e s)).1
  end.

(** The identifier each [add] of the sequence read, with its aggregate. *)
Definition history (steps : list (Env Content Storage * ref))
  : list (Ident * ref) :=
  (λ step, (Root.id (root (heap step.1 step.2)), step.2)) <$> steps.

(** The caller's assignment [aggregate.root.id = k]. *)
Definition set_root_id (aggregate : ref) (k : Ident) s
  : State Content Storage :=
  let a := heap (env s) aggregate in
  with_env
    {| heap := <[aggregate := {| root := Root.Build k; content := content a |}]>
                 (heap (env s));
       storage := storage (env s) |} s.

(** The caller's mutation of the rest of the aggregate. *)
Definition set_content (aggregate : ref) (c : Content) s
  : State Content Storage :=
  let a := heap (env s) aggregate in
  with_env
    {| heap := <[aggregate := {| root := root a; content := c |}]>
                 (heap (env s));
       storage := storage (env s) |} s.
End Callers.

(** ** Whole sessions *)

Section Sessions.
Context {Content Storage : Type}.
Implicit Types (s : State Content Storage) (e : Env Content Storage).

(** What a caller can do with a coordinator: call [add], call [commit] or
    [rollback] (and go on, whether it returned or raised), or let the
    aggregates and the storage medium change in between. *)
Inductive Action : Type :=
  | DoAdd (aggregate : ref)
  | DoBatch (op : Op)
  | Outside (e : Env Content Storage).

Definition perform (adapter : Adapter Content Storage) (a : Action) s
  : State Content Storage :=
  match a with
  | DoAdd aggregate => (add aggregate s).1
  | DoBatch op => (run adapter op s).1
  | Outside e => with_env e s
  end.

Fixpoint session (adapter : Adapter Content Storage) (acts : list Action) s
  : State Content Storage :=
  match acts with
  | [] => s
  | a :: acts' => session adapter acts' (perform adapter a s)
  end.

(** The aggregates a session passed to [add]. *)
Fixpoint added (acts : list Action) : list ref :=
  match acts with
  | [] => []
  | DoAdd aggregate :: acts' => aggregate :: added acts'
  | _ :: acts' => added acts'
  end.


(** The environment after the adapter method of [op] went over [vs], one
    aggregate after the other. *)
Definition thread (adapter : Adapter Content Storage) (op : Op)
    (vs : list ref) e : Env Content Storage :=
  foldl (λ e' r, (impl_of adapter op r e').1) e vs.

(** The adapter does not fail on [vs]: its method for [op] returns on each
    aggregate of [vs], in the environment its calls on the aggregates
    before that one have left.  This speaks of the adapter alone. *)
Definition returns_on (adapter : Adapter Content Storage) (op : Op)
    (vs : list ref) e : Prop :=
  ∀ pre r post, vs = pre ++ r :: post →
                (impl_of adapter op r (thread adapter op pre e)).2 = Ok tt.

(** The adapter does not fail on the tracked aggregates. *)
Definition calls_return (adapter : Adapter Content Storage) (op : Op) s : Prop :=
  returns_on adapter op (dict_values (aggregates s)) (env s).

End Sessions.

(** The aggregate a call was made on. *)
Definition call_target (c : Call) : ref :=
  match c with
  | CallStore aggregate => aggregate
  | CallRestore aggregate => aggregate
  end.

(** ** Reference notions the properties are stated with *)

(** The identifiers of a sequence, each at the place of its first
    occurrence. *)
Fixpoint insertion_order (ks : list Ident) : list Ident :=
  match ks with
  | [] => []
  | k :: ks' => k :: filter (λ k', k' ≠ k) (insertion_order ks')
  end.

(** The aggregate given by the last [add] made for [k], if any. *)
Fixpoint last_added (k : Ident) (h : list (Ident * ref)) : option ref :=
  match h with
  | [] => None
  | (k', r) :: h' =>
      match last_added k h' with
      | Some r' => Some r'
      | None => if decide (k' = k) then Some r else None
      end
  end.


(** How many times [x] occurs in [l]. *)
Definition occurrences {A} `{EqDecision A} (x : A) (l : list A) : nat :=
  length (filter (λ y, y = x) l).

(** An identifier a validating [add] would refuse: [None] or the empty
    string. *)
Definition invalid_id (k : Ident) : Prop := k = None ∨ k = Some ""%string.

(** ** Adapters used as test doubles *)

Section Doubles.
Context {Content : Type}.

(** An in-memory adapter that keeps, per identifier, a full copy of the
    aggregate last stored under it; [restore] puts that copy back in
    place, and raises [NotFoundError] when there is none. *)
Definition snapshot_adapter
  : Adapter Content (gmap Ident (Aggregate Content)) :=
  {| store_impl := λ r e,
       ({| heap := heap e;
           storage := <[Root.id (root (heap e r)) := heap e r]> (storage e) |},
        Ok tt);
     restore_impl := λ r e,
       match storage e !! Root.id (root (heap e r)) with
       | Some a => ({| heap := <[r := a]> (heap e); storage := storage e |}, Ok tt)
       | None => (e, Raise NotFoundError)
       end |}.

(** The same medium, out of order for the aggregate [bad]. *)
Definition faulty_adapter (bad : ref)
  : Adapter Content (gmap Ident (Aggregate Content)) :=
  {| store_impl := λ r e,
       if decide (r = bad) then (e, Raise StorageFailure)
       else store_impl snapshot_adapter r e;
     restore_impl := λ r e,
       if decide (r = bad) then (e, Raise StorageFailure)
       else restore_impl snapshot_adapter r e |}.
End Doubles.

(** ** Sample worlds for the test doubles *)

(** Two aggregates, ["x"] at address 0 and ["y"] at every other address,
    each with its address as content; nothing stored yet. *)
Definition sample_heap : ref → Aggregate nat :=
  λ r, {| root := Root.Build (Some (if decide (r = 0) then "x" else "y")%string);
          content := r |}.

Definition sample_env : Env nat (gmap Ident (Aggregate nat)) :=
  {| heap := sample_heap; storage := ∅ |}.

(** A coordinator tracking both. *)
Definition sample_state : State nat (gmap Ident (Aggregate nat)) :=
  (add 1 (add 0 (new sample_env)).1).1.

(** The same coordinator after the caller's [b.root.id = "x"] on the
    aggregate at address 1: both tracked aggregates now carry ["x"]. *)
Definition alias_state : State nat (gmap Ident (Aggregate nat)) :=
  set_root_id 1 (Some "x"%string) sample_state.


(** Aggregates without a usable identifier: [None] at address 0, the empty
    string elsewhere. *)
Definition nameless_env : Env nat (gmap Ident (Aggregate nat)) :=
  {| heap := λ r, {| root := Root.Build (if decide (r = 0) then None
                                          else Some ""%string);
                     content := r |};
     storage := ∅ |}.

(** One aggregate ["order-1"] in state 5 at every address. *)
Definition order_env : Env nat (gmap Ident (Aggregate nat)) :=
  {| heap := λ _, {| root := Root.Build (Some "order-1"%string); content := 5 |};
     storage := ∅ |}.

(** Aggregates that all carry ["x"], each with its address as content. *)
Definition same_id_env : Env nat (gmap Ident (Aggregate nat)) :=
  {| heap := λ r, {| root := Root.Build (Some "x"%string); content := r |};
     storage := ∅ |}.

(** ** Behaviours the specification asks for, as predicates on the code *)

Section Asked.
Context {Content Storage : Type}.
Implicit Types (s : State Content Storage).

(** [commit] then [rollback] gives every tracked aggregate back as it was. *)
Definition round_trip (adapter : Adapter Content Storage) s : Prop :=
  ∀ r, r ∈ dict_values (aggregates s) →
       heap (env (rollback adapter (commit adapter s).1).1) r = heap (env s) r.


(** The batch operation reaches every tracked aggregate, failures or not. *)
Definition continues_after_failure
    (adapter : Adapter Content Storage) (op : Op) s : Prop :=
  ∀ r, r ∈ dict_values (aggregates s) →
       call_of op r ∈ calls_since s (run adapter op s).1.

(** No [store] was invoked so far for the identifier [aggregate] carries. *)
Definition never_stored (aggregate : ref) s : Prop :=
  ∀ r, CallStore r ∈ calls s →
       Root.id (root (heap (env s) r)) ≠ Root.id (root (heap (env s) aggregate)).

(** [restore] raises [NotFoundError] for an aggregate never stored. *)
Definition surfaces_not_found
    (adapter : Adapter Content Storage) (aggregate : ref) s : Prop :=
  never_stored aggregate s →
  (restore adapter aggregate s).2 = Raise NotFoundError.

(** [add] refuses an aggregate without a usable identifier. *)
Definition rejects_invalid (aggregate : ref) s : Prop :=
  invalid_id (Root.id (root (heap (env s) aggregate))) →
  (add aggregate s).2 = Raise MisuseError
  ∧ aggregates (add aggregate s).1 = aggregates s.
End Asked.


(** What a full-snapshot medium promises: [snap st k] is the copy kept for
    [k]; [store] records the aggregate as it is, under its identifier, and
    touches no aggregate; [restore] puts the copy kept for the aggregate's
    identifier back in place. *)
Record full_snapshots {Content Storage : Type}
    (adapter : Adapter Content Storage)
    (snap : Storage → Ident → option (Aggregate Content)) : Prop :=
  { store_records : ∀ r e,
      ∃ e', store_impl adapter r e = (e', Ok tt)
        ∧ (∀ r', heap e' r' = heap e r')
        ∧ (∀ k, snap (storage e') k =
                if decide (k = Root.id (root (heap e r))) then Some (heap e r)
                else snap (storage e) k);
    restore_reproduces : ∀ r e a,
      snap (storage e) (Root.id (root (heap e r))) = Some a →
      ∃ e', restore_impl adapter r e = (e', Ok tt)
        ∧ (∀ r', heap e' r' = if decide (r' = r) then a else heap e r')
        ∧ (∀ k, snap (storage e') k = snap (storage e) k) }.

(** * Properties *)

(** ** The loop over the tracked aggregates *)

Section Loop.
Context {Content Storage : Type}.
Implicit Types (s : State Content Storage) (vs : list ref).

Variables (mk : ref → Call)
          (impl : ref → Env Content Storage → Env Content Storage * Result unit).

Let body (r : ref) : M Content Storage unit := invoke (mk r) (impl r).

Lemma invoke_aggregates c f s : aggregates (invoke c f s).1 = aggregates s.
Proof. unfold invoke. by destruct (f (env s)). Qed.

Lemma invoke_calls c f s : calls (invoke c f s).1 = calls s ++ [c].
Proof. unfold invoke. by destruct (f (env s)). Qed.

Lemma invoke_env c f s : env (invoke c f s).1 = (f (env s)).1.
Proof. unfold invoke. by destruct (f (env s)). Qed.

Lemma invoke_result c f s : (invoke c f s).2 = (f (env s)).2.
Proof. unfold invoke. by destruct (f (env s)). Qed.

Lemma for_each_cons r vs s :
  for_each (r :: vs) body s =
    match (body r s).2 with
    | Ok _ => for_each vs body (body r s).1
    | Raise e => ((body r s).1, Raise e)
    end.
Proof. simpl. unfold bind. by destruct (body r s) as [s' [[]|e]]. Qed.

(** The loop never touches the identity map. *)
Lemma for_each_aggregates vs s :
  aggregates (for_each vs body s).1 = aggregates s.
Proof.
  revert s. induction vs as [|r vs IH]; intros s; [done|].
  rewrite for_each_cons.
  destruct (body r s).2 eqn:E; simpl.
  - rewrite IH. apply invoke_aggregates.
  - apply invoke_aggregates.
Qed.

(** A loop that returns has made one call per element, in order. *)
Lemma for_each_calls_complete vs s :
  (for_each vs body s).2 = Ok tt →
  calls (for_each vs body s).1 = calls s ++ (mk <$> vs).
Proof.
  revert s. induction vs as [|r vs IH]; intros s.
  - intros _. simpl. by rewrite app_nil_r.
  - rewrite for_each_cons. destruct (body r s).2 eqn:E; [|done].
    intros H. rewrite (IH _ H). unfold body at 1. rewrite invoke_calls.
    by rewrite <-app_assoc.
Qed.

(** In any case the calls made are those of an initial segment. *)
Lemma for_each_calls_prefix vs s :
  ∃ n, n ≤ length vs ∧
       calls (for_each vs body s).1 = calls s ++ (mk <$> take n vs).
Proof.
  revert s. induction vs as [|r vs IH]; intros s.
  - exists 0. simpl. by rewrite app_nil_r.
  - rewrite for_each_cons. destruct (body r s).2 eqn:E.
    + destruct (IH (body r s).1) as (n & Hn & Hc).
      exists (S n). split; [simpl; lia|].
      rewrite Hc. unfold body at 1. rewrite invoke_calls.
      by rewrite <-app_assoc.
    + exists 1. split; [simpl; lia|].
      simpl. unfold body. apply invoke_calls.
Qed.

(** The loop does not look at the identity map either. *)
Lemma for_each_tracking vs d s :
  for_each vs body (tracking d s) =
    (tracking d (for_each vs body s).1, (for_each vs body s).2).
Proof.
  revert s. induction vs as [|r vs IH]; intros s; [done|].
  rewrite !for_each_cons.
  assert (Hb : body r (tracking d s) = (tracking d (body r s).1, (body r s).2)).
  { unfold body, invoke, tracking. cbn [env calls aggregates].
    by destruct (impl r (env s)). }
  rewrite Hb. cbn [fst snd]. destruct (body r s).2; [apply IH | done].
Qed.

(** The loop stops at the first call that raises. *)
Lemma for_each_abort pre r post s s1 s2 x :
  for_each pre body s = (s1, Ok tt) →
  body r s1 = (s2, Raise x) →
  for_each (pre ++ r :: post) body s = (s2, Raise x).
Proof.
  revert s. induction pre as [|p pre IH]; intros s Hpre Hr.
  - simpl in Hpre. unfold ret in Hpre. simplify_eq.
    rewrite app_nil_l, for_each_cons. by rewrite Hr.
  - simpl app. rewrite for_each_cons. rewrite for_each_cons in Hpre.
    destruct (body p s).2 eqn:E; [|done]. by apply IH.
Qed.
End Loop.

Section Batch.
Context {Content Storage : Type}.
Implicit Types (s : State Content Storage) (adapter : Adapter Content Storage).

Lemma run_loop adapter op s :
  run adapter op s =
    for_each (dict_values (aggregates s))
      (λ r, invoke (call_of op r) (impl_of adapter op r)) s.
Proof. by destruct op. Qed.

Lemma run_aggregates adapter op s :
  aggregates (run adapter op s).1 = aggregates s.
Proof. rewrite run_loop. apply for_each_aggregates. Qed.

Lemma run_ops_aggregates adapter ops s :
  aggregates (run_ops adapter ops s) = aggregates s.
Proof.
  revert s. induction ops as [|op ops IH]; intros s; [done|].
  simpl. rewrite IH. apply run_aggregates.
Qed.

Lemma occurrences_fmap_call_of op r (vs : list ref) :
  occurrences (call_of op r) (call_of op <$> vs) = occurrences r vs.
Proof.
  unfold occurrences. induction vs as [|v vs IH]; [done|].
  rewrite fmap_cons, !filter_cons.
  destruct (decide (v = r)) as [->|Hne].
  - rewrite decide_True by done. simpl. by rewrite IH.
  - rewrite decide_False; [done|]. destruct op; simpl; congruence.
Qed.

End Batch.

(** ** What a loop does, from what the adapter does *)

Section Cases.
Context {Content Storage : Type}.
Implicit Types (s : State Content Storage) (vs : list ref).

Variables (mk : ref → Call)
          (impl : ref → Env Content Storage → Env Content Storage * Result unit).

(** Either every call returns, and then the loop returns having made all
    of them, each in the environment the calls before it left; or there is
    a first call that raises, and then the loop raises what that call
    raised, having made the calls up to and including that one. *)
Lemma for_each_cases vs s :
  let out := for_each vs (λ r, invoke (mk r) (impl r)) s in
  ((∀ pre r post, vs = pre ++ r :: post →
       (impl r (foldl (λ e r, (impl r e).1) (env s) pre)).2 = Ok tt)
   ∧ out.2 = Ok tt
   ∧ calls out.1 = calls s ++ (mk <$> vs)
   ∧ env out.1 = foldl (λ e r, (impl r e).1) (env s) vs)
  ∨ (∃ pre r post x,
       vs = pre ++ r :: post
       ∧ (∀ pre' r' post', pre = pre' ++ r' :: post' →
            (impl r' (foldl (λ e r, (impl r e).1) (env s) pre')).2 = Ok tt)
       ∧ impl r (foldl (λ e r, (impl r e).1) (env s) pre) = (env out.1, Raise x)
       ∧ out.2 = Raise x
       ∧ calls out.1 = calls s ++ (mk <$> pre ++ [r])).
Proof.
  cbn zeta. revert s. induction vs as [|r vs IH]; intros s.
  - left. split_and!; [|done|by rewrite app_nil_r|done].
    intros pre r post H. by destruct pre.
  - rewrite for_each_cons, invoke_result.
    set (s' := (invoke (mk r) (impl r) s).1).
    assert (Henv : env s' = (impl r (env s)).1) by apply invoke_env.
    assert (Hcalls : calls s' = calls s ++ [mk r]) by apply invoke_calls.
    destruct (impl r (env s)) as [e' [[]|x]] eqn:E; cbn [fst snd] in *.
    + assert (Hshift : ∀ l, foldl (λ e r, (impl r e).1) (env s) (r :: l)
                            = foldl (λ e r, (impl r e).1) (env s') l).
      { intros l. cbn [foldl]. by rewrite E, Henv. }
      destruct (IH s')
        as [(Hall & Hres & Hc & He)
           |(pre & r1 & post & x & -> & Hall & Hfail & Hres & Hc)].
      * left. split_and!.
        -- intros [|p pre] r1 post Hsplit; simpl in Hsplit; simplify_eq.
           ++ cbn [foldl]. by rewrite E.
           ++ rewrite Hshift. by eapply Hall.
        -- done.
        -- rewrite Hc, Hcalls, fmap_cons. by rewrite <-app_assoc.
        -- by rewrite Hshift.
      * right. exists (r :: pre), r1, post, x. split_and!.
        -- done.
        -- intros [|p pre'] r' post' Hsplit; simpl in Hsplit; simplify_eq.
           ++ cbn [foldl]. by rewrite E.
           ++ rewrite Hshift. by eapply Hall.
        -- by rewrite Hshift.
        -- done.
        -- rewrite Hc, Hcalls. rewrite <-app_comm_cons, fmap_cons.
           by rewrite <-app_assoc.
    + right. exists [], r, vs, x. split_and!; [done | | | done | done].
      * intros pre' r' post' H. by destruct pre'.
      * cbn [foldl]. by rewrite E, Henv.
Qed.

(** Two ways of cutting a list at an element: at the same place, or one
    of the two places lies before the other. *)
Lemma split_compare {A} (pre1 pre2 post1 post2 : list A) (x1 x2 : A) :
  pre1 ++ x1 :: post1 = pre2 ++ x2 :: post2 →
  (pre1 = pre2 ∧ x1 = x2 ∧ post1 = post2)
  ∨ (∃ mid, pre2 = pre1 ++ x1 :: mid)
  ∨ (∃ mid, pre1 = pre2 ++ x2 :: mid).
Proof.
  revert pre2. induction pre1 as [|a pre1 IH]; intros [|b pre2] H; simpl in H.
  - injection H as ? ?. subst. by left.
  - injection H as ? ?. subst. right. left. by eexists.
  - injection H as ? ?. subst. right. right. by eexists.
  - injection H as -> H.
    destruct (IH pre2 H) as [(-> & -> & ->)|[[mid ->]|[mid ->]]].
    + by left.
    + right. left. by eexists.
    + right. right. by eexists.
Qed.
End Cases.

Section Returns.
Context {Content Storage : Type}.
Implicit Types (s : State Content Storage) (adapter : Adapter Content Storage)
               (e : Env Content Storage) (vs : list ref).

(** The two cases of a batch operation. *)
Lemma run_cases adapter op s :
  let vs := dict_values (aggregates s) in
  let out := run adapter op s in
  (returns_on adapter op vs (env s)
   ∧ completes out
   ∧ calls out.1 = calls s ++ (call_of op <$> vs)
   ∧ env out.1 = thread adapter op vs (env s))
  ∨ (∃ pre r post x,
       vs = pre ++ r :: post
       ∧ returns_on adapter op pre (env s)
       ∧ impl_of adapter op r (thread adapter op pre (env s)) = (env out.1, Raise x)
       ∧ out.2 = Raise x
       ∧ calls out.1 = calls s ++ (call_of op <$> pre ++ [r])).
Proof.
  intros vs out. subst out. rewrite run_loop. fold vs.
  exact (for_each_cases (call_of op) (impl_of adapter op) vs s).
Qed.

(** When the adapter does not fail on the tracked aggregates, the batch
    operation returns, having invoked it on each entry in order. *)
Lemma run_returns adapter op s :
  calls_return adapter op s →
  completes (run adapter op s)
  ∧ calls_since s (run adapter op s).1 = call_of op <$> dict_values (aggregates s)
  ∧ env (run adapter op s).1
    = thread adapter op (dict_values (aggregates s)) (env s).
Proof.
  intros Hret.
  destruct (run_cases adapter op s)
    as [(_ & Hres & Hc & He)|(pre & r & post & x & Hvs & _ & Hfail & _)].
  - split_and!; [done | | done].
    unfold calls_since. rewrite Hc. by rewrite drop_app_length.
  - specialize (Hret pre r post Hvs). rewrite Hfail in Hret. discriminate Hret.
Qed.

(** A batch operation raises [x] exactly when the first call of the adapter
    that raises, raises [x]. *)
Lemma run_raises_iff adapter op s x :
  (run adapter op s).2 = Raise x
  ↔ ∃ pre r post,
      dict_values (aggregates s) = pre ++ r :: post
      ∧ returns_on adapter op pre (env s)
      ∧ (impl_of adapter op r (thread adapter op pre (env s))).2 = Raise x.
Proof.
  destruct (run_cases adapter op s)
    as [(Hall & Hres & _)|(pre & r & post & x0 & Hvs & Hpre & Hfail & Hres & _)].
  - unfold completes in Hres. split.
    + rewrite Hres. discriminate.
    + intros (pre & r & post & Hvs & _ & Hx).
      rewrite (Hall pre r post Hvs) in Hx. discriminate Hx.
  - split.
    + rewrite Hres. intros [= <-]. exists pre, r, post.
      split_and!; [done | done | by rewrite Hfail].
    + intros (pre' & r' & post' & Hvs' & Hpre' & Hx). rewrite Hres.
      rewrite Hvs in Hvs'.
      destruct (split_compare _ _ _ _ _ _ Hvs')
        as [(-> & -> & _)|[[mid ->]|[mid ->]]].
      * rewrite Hfail in Hx. cbn [snd] in Hx. exact Hx.
      * specialize (Hpre' pre r mid eq_refl).
        rewrite Hfail in Hpre'. discriminate Hpre'.
      * specialize (Hpre pre' r' mid eq_refl).
        rewrite Hx in Hpre. discriminate Hpre.
Qed.

(** An adapter whose method never raises does not fail on anything. *)
Lemma returns_on_total adapter op vs e :
  (∀ r e', (impl_of adapter op r e').2 = Ok tt) → returns_on adapter op vs e.
Proof. intros H pre r post _. apply H. Qed.

End Returns.

Section Visits.
Context {Content Storage : Type}.
Implicit Types (s : State Content Storage) (adapter : Adapter Content Storage).

Lemma calls_since_app s s' (l : list Call) :
  calls s' = calls s ++ l → calls_since s s' = l.
Proof. unfold calls_since. intros ->. by rewrite drop_app_length. Qed.

Lemma run_calls_complete adapter op s :
  completes (run adapter op s) →
  calls_since s (run adapter op s).1 = call_of op <$> dict_values (aggregates s).
Proof.
  unfold completes. rewrite run_loop. intros H.
  apply calls_since_app. by apply for_each_calls_complete.
Qed.


End Visits.

Section Frame.
Context {Content Storage : Type}.
Implicit Types (s : State Content Storage) (adapter : Adapter Content Storage).

Lemma for_each_base_env (mk : ref → Call) (vs : list ref) s :
  for_each vs (λ r, invoke (mk r) (λ e : Env Content Storage, (e, Ok tt))) s
  = ({| aggregates := aggregates s; env := env s;
        calls := calls s ++ (mk <$> vs) |}, Ok tt).
Proof.
  revert s. induction vs as [|r vs IH]; intros s.
  - simpl. unfold ret. rewrite app_nil_r. by destruct s.
  - simpl. unfold bind. unfold invoke at 1. simpl. rewrite IH. simpl.
    by rewrite <-app_assoc.
Qed.

(** C3.  [commit] and [rollback] leave the identity map as it was, whether
    they return or raise: the same entries, with the same keys bound to the
    same aggregates, in the same order; and so does any sequence of them.
    The coordinator itself writes to no aggregate and keeps no mark on
    them: what happens to the environment is what the adapter's methods do,
    and with methods that do nothing the environment is unchanged. *)
Theorem batch_preserves_identity_map adapter s :
  (∀ op, aggregates (run adapter op s).1 = aggregates s)
  ∧ (∀ ops, aggregates (run_ops adapter ops s) = aggregates s)
  ∧ (∀ ops k, dict_get k (aggregates (run_ops adapter ops s))
              = dict_get k (aggregates s))
  ∧ (∀ ops, dict_len (aggregates (run_ops adapter ops s))
            = dict_len (aggregates s))
  ∧ (∀ op, env (run base_adapter op s).1 = env s).
Proof.
  split_and!.
  - intros op. apply run_aggregates.
  - intros ops. apply run_ops_aggregates.
  - intros ops k. by rewrite run_ops_aggregates.
  - intros ops. by rewrite run_ops_aggregates.
  - intros op. rewrite run_loop.
    destruct op; simpl; unfold Repository_store, Repository_restore;
      by rewrite for_each_base_env.
Qed.

(** C8.  With no tracked aggregate [commit] returns at once: it invokes
    nothing and changes nothing.  A coordinator is constructed with an empty
    identity map, so a [commit] right after construction is such a call. *)
Theorem commit_empty_is_noop adapter s :
  aggregates s = [] →
  commit adapter s = (s, Ok tt)
  ∧ calls_since s (commit adapter s).1 = []
  ∧ (∀ e, aggregates (new e) = []
          ∧ commit adapter (new e) = (new e, Ok tt)
          ∧ calls (commit adapter (new e)).1 = []).
Proof.
  intros H.
  assert (Hc : ∀ s', aggregates s' = [] → commit adapter s' = (s', Ok tt)).
  { intros s' Hs'. unfold commit. by rewrite Hs'. }
  split_and!.
  - by apply Hc.
  - rewrite Hc by done. simpl. unfold calls_since. apply drop_all.
  - intros e. rewrite Hc by done. done.
Qed.
End Frame.

Lemma commit_empty_is_noop_witness :
  aggregates (new sample_env) = []
  ∧ commit snapshot_adapter (new sample_env) = (new sample_env, Ok tt).
Proof.
  split; [reflexivity|].
  exact (proj1 (commit_empty_is_noop snapshot_adapter (new sample_env) eq_refl)).
Defined.

(** ** The dict *)

Section Dict.
Implicit Types (d : dict) (k : Ident) (v r : ref).

Lemma dict_get_setitem k v k' d :
  dict_get k' (dict_setitem k v d) = if decide (k = k') then Some v else dict_get k' d.
Proof.
  induction d as [|[k0 v0] d IH]; simpl.
  - by destruct (decide (k = k')).
  - destruct (decide (k0 = k)) as [->|Hk0]; simpl.
    + by destruct (decide (k = k')).
    + destruct (decide (k0 = k')) as [->|?].
      * by rewrite decide_False by done.
      * done.
Qed.

Lemma dict_get_Some_elem k v d : dict_get k d = Some v → (k, v) ∈ d.
Proof.
  induction d as [|[k0 v0] d IH]; simpl; [done|].
  destruct (decide (k0 = k)) as [->|?].
  - intros [= ->]. apply list_elem_of_here.
  - intros H. apply list_elem_of_further. by apply IH.
Qed.


Lemma dict_elem_get k v d : NoDup (dict_keys d) → (k, v) ∈ d → dict_get k d = Some v.
Proof.
  unfold dict_keys. induction d as [|[k0 v0] d IH]; simpl.
  - by intros _ ?%elem_of_nil.
  - intros [Hk0 Hd]%NoDup_cons [[= -> ->]|Hin]%elem_of_cons.
    + by rewrite decide_True.
    + rewrite decide_False; [by apply IH|].
      intros ->. apply Hk0. apply list_elem_of_fmap. by exists (k, v).
Qed.

Lemma dict_keys_setitem k v d :
  dict_keys (dict_setitem k v d) =
    if decide (k ∈ dict_keys d) then dict_keys d else dict_keys d ++ [k].
Proof.
  unfold dict_keys. induction d as [|[k0 v0] d IH].
  - case_decide as H; [by apply elem_of_nil in H | done].
  - cbn [dict_setitem]. destruct (decide (k0 = k)) as [->|Hk0].
    + rewrite !fmap_cons. cbn [fst].
      rewrite decide_True; [done | apply list_elem_of_here].
    + rewrite !fmap_cons, IH. cbn [fst].
      destruct (decide (k ∈ d.*1)) as [Hin|Hnin].
      * rewrite decide_True; [done | by apply list_elem_of_further].
      * rewrite decide_False; [done|]. rewrite not_elem_of_cons. naive_solver.
Qed.

Lemma dict_len_setitem k v d :
  dict_len (dict_setitem k v d) =
    if decide (k ∈ dict_keys d) then dict_len d else S (dict_len d).
Proof.
  pose proof (dict_keys_setitem k v d) as H.
  apply (f_equal length) in H. unfold dict_len, dict_keys in *.
  rewrite length_fmap in H. rewrite H.
  destruct (decide (k ∈ d.*1)); rewrite ?length_app, !length_fmap; simpl; lia.
Qed.




Lemma occurrences_cons {A} `{EqDecision A} (x y : A) (l : list A) :
  occurrences x (y :: l) = (if decide (y = x) then 1 else 0) + occurrences x l.
Proof. unfold occurrences. rewrite filter_cons. by destruct (decide (y = x)). Qed.




End Dict.

(** ** Histories of [add] *)

Section Orders.
Implicit Types (k : Ident) (ks : list Ident) (h : list (Ident * ref)).

Lemma elem_of_insertion_order k ks : k ∈ insertion_order ks ↔ k ∈ ks.
Proof.
  induction ks as [|k0 ks IH]; [done|].
  cbn [insertion_order]. rewrite !elem_of_cons, list_elem_of_filter, IH.
  destruct (decide (k = k0)) as [->|Hne].
  - split; intros _; by left.
  - split.
    + intros [?|[_ ?]]; [done | by right].
    + intros [?|?]; [done | by right].
Qed.

Lemma NoDup_insertion_order ks : NoDup (insertion_order ks).
Proof.
  induction ks as [|k0 ks IH]; [constructor|].
  cbn [insertion_order]. apply NoDup_cons. split.
  - rewrite list_elem_of_filter. by intros [? _].
  - by apply NoDup_filter.
Qed.

Lemma insertion_order_snoc ks k :
  insertion_order (ks ++ [k]) =
    if decide (k ∈ ks) then insertion_order ks else insertion_order ks ++ [k].
Proof.
  induction ks as [|k0 ks IH].
  - case_decide as H; [by apply elem_of_nil in H | done].
  - rewrite <-app_comm_cons. cbn [insertion_order]. rewrite IH.
    destruct (decide (k ∈ ks)) as [Hin|Hnin].
    + rewrite decide_True; [done | by apply list_elem_of_further].
    + rewrite filter_app, filter_cons, filter_nil.
      destruct (decide (k = k0)) as [->|Hne].
      * rewrite decide_False by (by intros ?).
        rewrite decide_True by apply list_elem_of_here.
        by rewrite app_nil_r.
      * rewrite decide_True by done.
        rewrite decide_False; [done|].
        rewrite not_elem_of_cons. by split.
Qed.

Lemma length_insertion_order ks :
  length (insertion_order ks) = length (remove_dups ks).
Proof.
  apply Permutation_length, NoDup_Permutation.
  - apply NoDup_insertion_order.
  - apply NoDup_remove_dups.
  - intros k. by rewrite elem_of_insertion_order, elem_of_remove_dups.
Qed.

Lemma last_added_snoc k h k' r :
  last_added k (h ++ [(k', r)]) =
    if decide (k' = k) then Some r else last_added k h.
Proof.
  induction h as [|[k0 r0] h IH].
  - simpl. by destruct (decide (k' = k)).
  - rewrite <-app_comm_cons. cbn [last_added]. rewrite IH.
    destruct (decide (k' = k)); [done|]. done.
Qed.
End Orders.

Section History.
Context {Content Storage : Type}.
Implicit Types (s : State Content Storage) (e : Env Content Storage)
               (steps : list (Env Content Storage * ref)).

Lemma adds_snoc steps e r s :
  adds (steps ++ [(e, r)]) s = (add r (with_env e (adds steps s))).1.
Proof.
  revert s. induction steps as [|[e0 r0] steps IH]; intros s; [done|].
  rewrite <-app_comm_cons. cbn [adds]. by rewrite IH.
Qed.

Lemma history_snoc steps e r :
  history (steps ++ [(e, r)]) = history steps ++ [(Root.id (root (heap e r)), r)].
Proof. unfold history. by rewrite fmap_app. Qed.

(** The identity map after a sequence of [add]: its keys are the
    identifiers in the order of their first [add], and each is bound to the
    aggregate of its last [add]. *)
Lemma adds_aggregates steps e0 :
  let d := aggregates (adds steps (new e0)) in
  dict_keys d = insertion_order (history steps).*1
  ∧ ∀ k, dict_get k d = last_added k (history steps).
Proof.
  induction steps as [|[e r] steps [IHk IHg]] using rev_ind; [done|].
  cbn zeta. rewrite adds_snoc, history_snoc.
  cbn [add fst aggregates with_env env]. split.
  - rewrite dict_keys_setitem, IHk.
    replace ((history steps ++ [(Root.id (root (heap e r)), r)]).*1)
      with ((history steps).*1 ++ [Root.id (root (heap e r))])
      by (by rewrite fmap_app).
    rewrite insertion_order_snoc.
    destruct (decide (Root.id (root (heap e r)) ∈ (history steps).*1)).
    + rewrite decide_True; [done | by apply elem_of_insertion_order].
    + rewrite decide_False; [done | by rewrite elem_of_insertion_order].
  - intros k. by rewrite dict_get_setitem, last_added_snoc, IHg.
Qed.

End History.

Section Keys.
Context {Content Storage : Type}.
Implicit Types (s : State Content Storage) (e : Env Content Storage)
               (steps : list (Env Content Storage * ref))
               (adapter : Adapter Content Storage).

(** C2.  After any sequence of [add] calls on a new coordinator the
    identity map has exactly one entry per distinct identifier read by
    those calls: its keys are without repetition and are those identifiers,
    its entry for an identifier holds the aggregate of the last [add] made
    for it, and its size is the number of distinct identifiers. *)
Theorem adds_last_write_wins steps e0 :
  let d := aggregates (adds steps (new e0)) in
  let h := history steps in
  NoDup (dict_keys d)
  ∧ (∀ k, k ∈ dict_keys d ↔ k ∈ h.*1)
  ∧ (∀ k r, (k, r) ∈ d ↔ last_added k h = Some r)
  ∧ dict_len d = length (remove_dups h.*1)
  ∧ dict_len d ≤ length (remove_dups h.*1).
Proof.
  intros d h. destruct (adds_aggregates steps e0) as [Hk Hg].
  fold d h in Hk, Hg.
  assert (Hnd : NoDup (dict_keys d)) by (rewrite Hk; apply NoDup_insertion_order).
  assert (Hlen : dict_len d = length (remove_dups h.*1)).
  { rewrite <-length_insertion_order, <-Hk.
    unfold dict_len, dict_keys. by rewrite length_fmap. }
  split_and!.
  - done.
  - intros k. rewrite Hk. apply elem_of_insertion_order.
  - intros k r. rewrite <-Hg. split.
    + by apply dict_elem_get.
    + apply dict_get_Some_elem.
  - done.
  - by rewrite Hlen.
Qed.


End Keys.



(** ** Visits *)

Section Once.
Context {Content Storage : Type}.
Implicit Types (s : State Content Storage) (adapter : Adapter Content Storage).

End Once.



(** ** Failures *)

Section Failures.
Context {Content Storage : Type}.
Implicit Types (s : State Content Storage) (adapter : Adapter Content Storage).

(** C5, as the code has it.  [commit] and [rollback] stop at the first
    call that raises: when the calls for the entries before an entry
    return and the call for that entry raises, the batch operation raises
    that same exception, having invoked the aggregates up to and including
    that one, in order; the identity map is as it was, and an aggregate of
    a later entry that was not among those is not invoked at all. *)
Theorem batch_aborts_at_first_failure adapter op s pre k r post s1 e2 x :
  aggregates s = pre ++ (k, r) :: post →
  run adapter op (tracking pre s) = (s1, Ok tt) →
  impl_of adapter op r (env s1) = (e2, Raise x) →
  let out := run adapter op s in
  out.2 = Raise x
  ∧ env out.1 = e2
  ∧ aggregates out.1 = aggregates s
  ∧ calls_since s out.1 = call_of op <$> (dict_values pre ++ [r])
  ∧ (∀ r', r' ∉ dict_values pre → r' ≠ r → call_of op r' ∉ calls_since s out.1).
Proof.
  intros Hs Hpre Hr out.
  set (body := λ r0, invoke (call_of op r0) (impl_of adapter op r0)).
  rewrite run_loop in Hpre. fold body in Hpre.
  cbn [tracking aggregates] in Hpre.
  rewrite (for_each_tracking (call_of op) (impl_of adapter op)) in Hpre.
  fold body in Hpre.
  destruct (for_each (dict_values pre) body s) as [s0 res] eqn:E.
  cbn [fst snd] in Hpre. injection Hpre as <- ->.
  pose proof (for_each_aggregates (call_of op) (impl_of adapter op)
                (dict_values pre) s) as Ha.
  pose proof (for_each_calls_complete (call_of op) (impl_of adapter op)
                (dict_values pre) s) as Hc.
  fold body in Ha, Hc. rewrite E in Ha, Hc. cbn [fst snd] in Ha, Hc.
  specialize (Hc eq_refl). cbn [tracking env] in Hr.
  assert (Hout : out =
    ({| aggregates := aggregates s; env := e2;
        calls := calls s ++ (call_of op <$> dict_values pre ++ [r]) |},
     Raise x)).
  { subst out. rewrite run_loop. fold body. rewrite Hs. unfold dict_values at 1.
    rewrite fmap_app, fmap_cons. cbn [snd].
    apply (for_each_abort (call_of op) (impl_of adapter op) _ _ _ _ s0); [exact E|].
    unfold invoke. rewrite Hr, Ha, Hc, fmap_app.
    by rewrite Hs, <-app_assoc. }
  rewrite Hout. cbn [fst snd env aggregates].
  assert (Hsince : calls_since s
    {| aggregates := aggregates s; env := e2;
       calls := calls s ++ (call_of op <$> dict_values pre ++ [r]) |}
    = call_of op <$> (dict_values pre ++ [r])) by (by apply calls_since_app).
  split_and!; try done.
  intros r' Hr' Hne. rewrite Hsince.
  intros (r0 & Heq & Hin)%list_elem_of_fmap.
  assert (r0 = r') as -> by (destruct op; simpl in Heq; congruence).
  apply elem_of_app in Hin as [Hin|Hin%list_elem_of_singleton]; [by apply Hr'|done].
Qed.
End Failures.

Lemma batch_aborts_at_first_failure_witness :
  let out := run (faulty_adapter 0) Commit sample_state in
  out.2 = Raise StorageFailure
  ∧ calls_since sample_state out.1 = [CallStore 0].
Proof.
  intros out.
  destruct (batch_aborts_at_first_failure (faulty_adapter 0) Commit sample_state
              [] (Some "x"%string) 0 [(Some "y"%string, 1)]
              (tracking [] sample_state) sample_env StorageFailure
              eq_refl eq_refl eq_refl) as (Hres & _ & _ & Hcalls & _).
  split; [exact Hres | exact Hcalls].
Defined.

(** C5, as the specification states it, does not hold of the code: with a
    medium that fails for the first of two tracked aggregates, [commit]
    raises that one failure and the second aggregate is never invoked. *)
Lemma batch_does_not_continue_after_failure :
  (run (faulty_adapter 0) Commit sample_state).2 = Raise StorageFailure
  ∧ ¬ continues_after_failure (faulty_adapter 0) Commit sample_state.
Proof.
  split; [reflexivity|].
  intros H. specialize (H 1).
  assert (Hin : 1 ∈ dict_values (aggregates sample_state))
    by (apply list_elem_of_further, list_elem_of_here).
  specialize (H Hin).
  change (calls_since sample_state (run (faulty_adapter 0) Commit sample_state).1)
    with [CallStore 0] in H.
  apply list_elem_of_singleton in H. discriminate H.
Qed.

Section Contracts.
Context {Content Storage : Type}.
Implicit Types (s : State Content Storage) (adapter : Adapter Content Storage).

(** C6, as the code has it.  [Repository.restore] has an empty body: for
    every aggregate and environment, stored before or not, it returns and
    leaves everything as it was, and a [rollback] through it returns having
    changed no aggregate.  The coordinator makes no check of its own.  The
    outcome of one dispatched [restore] is the outcome of the adapter's
    method, so it raises [NotFoundError] exactly when the adapter's
    [restore] does.  A [rollback] raises an exception exactly when the
    first of the adapter's [restore] calls to raise (in iteration order,
    each call in the environment the calls before it left) raises that
    exception: a [NotFoundError] of the adapter reaches the caller of
    [rollback] when, and only when, no earlier tracked aggregate failed
    otherwise; and with an adapter that does not fail on the tracked
    aggregates [rollback] returns. *)
Theorem restore_outcome_is_the_adapters adapter :
  (∀ r (e : Env Content Storage), Repository_restore r e = (e, Ok tt))
  ∧ (∀ s, (rollback base_adapter s).2 = Ok tt
          ∧ env (rollback base_adapter s).1 = env s
          ∧ aggregates (rollback base_adapter s).1 = aggregates s)
  ∧ (∀ r s, (restore adapter r s).2 = (restore_impl adapter r (env s)).2
            ∧ env (restore adapter r s).1 = (restore_impl adapter r (env s)).1)
  ∧ (∀ r s, (restore adapter r s).2 = Raise NotFoundError
            ↔ (restore_impl adapter r (env s)).2 = Raise NotFoundError)
  ∧ (∀ s x, (rollback adapter s).2 = Raise x
            ↔ ∃ pre r post,
                dict_values (aggregates s) = pre ++ r :: post
                ∧ returns_on adapter Rollback pre (env s)
                ∧ (restore_impl adapter r (thread adapter Rollback pre (env s))).2
                  = Raise x)
  ∧ (∀ s, calls_return adapter Rollback s → (rollback adapter s).2 = Ok tt).
Proof.
  split_and!.
  - done.
  - intros s. unfold rollback, restore, base_adapter. cbn [restore_impl].
    unfold Repository_restore. by rewrite for_each_base_env.
  - intros r s. unfold restore. by rewrite invoke_result, invoke_env.
  - intros r s. unfold restore. by rewrite invoke_result.
  - intros s x. exact (run_raises_iff adapter Rollback s x).
  - intros s H. exact (proj1 (run_returns adapter Rollback s H)).
Qed.

(** C7, as the code has it.  [add] validates nothing: an aggregate whose
    identifier is [None] or the empty string is stored like any other.  The
    call returns, the identity map binds that identifier to the aggregate,
    every other key is as before, and nothing else changes. *)
Theorem add_stores_under_any_identifier (r : ref) s :
  invalid_id (Root.id (root (heap (env s) r))) →
  let k := Root.id (root (heap (env s) r)) in
  let out := add r s in
  out.2 = Ok tt
  ∧ dict_get k (aggregates out.1) = Some r
  ∧ (k, r) ∈ aggregates out.1
  ∧ (∀ k', k' ≠ k → dict_get k' (aggregates out.1) = dict_get k' (aggregates s))
  ∧ env out.1 = env s
  ∧ calls out.1 = calls s.
Proof.
  intros _ k out.
  assert (Hget : dict_get k (aggregates out.1) = Some r).
  { subst out. unfold add. cbn [fst aggregates].
    rewrite dict_get_setitem. by rewrite decide_True. }
  split_and!; try done.
  - by apply dict_get_Some_elem.
  - intros k' Hk'. subst out. unfold add. cbn [fst aggregates].
    rewrite dict_get_setitem. by rewrite decide_False.
Qed.
End Contracts.

Lemma add_stores_under_any_identifier_witness :
  invalid_id (Root.id (root (heap (env (new nameless_env)) 0)))
  ∧ (add 0 (new nameless_env)).2 = Ok tt
  ∧ aggregates (add 0 (new nameless_env)).1 = [(None, 0)].
Proof.
  assert (H : invalid_id (Root.id (root (heap (env (new nameless_env)) 0))))
    by (left; reflexivity).
  split; [exact H|].
  split; [|reflexivity].
  exact (proj1 (add_stores_under_any_identifier 0 (new nameless_env) H)).
Defined.

(** C6, as the specification states it, does not hold of the code: nothing
    was ever stored, and [restore] on an aggregate returns normally without
    touching it. *)
Lemma restore_does_not_signal_not_found :
  never_stored 0 (new sample_env)
  ∧ restore base_adapter 0 (new sample_env)
    = ({| aggregates := []; env := sample_env; calls := [CallRestore 0] |}, Ok tt)
  ∧ ¬ surfaces_not_found base_adapter 0 (new sample_env).
Proof.
  assert (Hn : never_stored 0 (new sample_env)).
  { intros r Hr. by apply elem_of_nil in Hr. }
  split_and!; [exact Hn | reflexivity |].
  intros H. specialize (H Hn). discriminate H.
Qed.

(** C7, as the specification states it, does not hold of the code: an
    aggregate whose identifier is [None] is accepted and stored under
    [None]; so is one whose identifier is the empty string. *)
Lemma add_does_not_reject_invalid :
  add 0 (new nameless_env)
  = ({| aggregates := [(None, 0)]; env := nameless_env; calls := [] |}, Ok tt)
  ∧ add 1 (new nameless_env)
    = ({| aggregates := [(Some ""%string, 1)]; env := nameless_env; calls := [] |},
       Ok tt)
  ∧ ¬ rejects_invalid 0 (new nameless_env)
  ∧ ¬ rejects_invalid 1 (new nameless_env).
Proof.
  split_and!; [reflexivity | reflexivity | |].
  - intros H. destruct H as [H _]; [by left | discriminate H].
  - intros H. destruct H as [H _]; [by right | discriminate H].
Qed.

(** ** Round trip through a full-snapshot medium *)

Section RoundTrip.
Context {Content Storage : Type}.
Implicit Types (s : State Content Storage) (e : Env Content Storage)
               (vs : list ref).

Variables (adapter : Adapter Content Storage)
          (snap : Storage → Ident → option (Aggregate Content)).

(** The [store] pass: it returns, changes no aggregate, and leaves for each
    aggregate it went over the copy of an aggregate with that identifier;
    identifiers it did not meet keep the copy they had. *)
Lemma store_pass vs s (h : ref → Aggregate Content) :
  full_snapshots adapter snap →
  (∀ r, heap (env s) r = h r) →
  (∀ r1 r2, r1 ∈ vs → r2 ∈ vs →
            Root.id (root (h r1)) = Root.id (root (h r2)) → h r1 = h r2) →
  let out := for_each vs (λ r, invoke (CallStore r) (store_impl adapter r)) s in
  out.2 = Ok tt
  ∧ (∀ r, heap (env out.1) r = h r)
  ∧ (∀ r, r ∈ vs → snap (storage (env out.1)) (Root.id (root (h r))) = Some (h r))
  ∧ (∀ k, (∀ r, r ∈ vs → Root.id (root (h r)) ≠ k) →
          snap (storage (env out.1)) k = snap (storage (env s)) k).
Proof.
  intros contract. cbn zeta.
  revert s. induction vs as [|r0 vs IH]; intros s Hh Huniq.
  - split_and!; [done | done | by intros r ?%elem_of_nil | done].
  - rewrite for_each_cons.
    destruct (store_records _ _ contract r0 (env s)) as (e' & He' & Hheap & Hsnap).
    set (s' := (invoke (CallStore r0) (store_impl adapter r0) s).1).
    assert (Henv : env s' = e')
      by (unfold s'; by rewrite invoke_env, He').
    rewrite invoke_result, He'. cbn [snd].
    assert (Hh' : ∀ r, heap (env s') r = h r)
      by (intros r; by rewrite Henv, Hheap).
    assert (Huniq' : ∀ r1 r2, r1 ∈ vs → r2 ∈ vs →
              Root.id (root (h r1)) = Root.id (root (h r2)) → h r1 = h r2).
    { intros r1 r2 H1 H2. apply Huniq; by apply list_elem_of_further. }
    destruct (IH s' Hh' Huniq') as (Hres & Hheap' & Hkept & Hother).
    split_and!.
    + exact Hres.
    + exact Hheap'.
    + intros r [->|Hr]%elem_of_cons; [|by apply Hkept].
      destruct (decide (Root.id (root (h r0))
                        ∈ (λ r, Root.id (root (h r))) <$> vs)) as [Hin|Hnin].
      * apply list_elem_of_fmap in Hin as (r1 & Hid & Hr1).
        rewrite Hid, (Hkept r1 Hr1). f_equal. symmetry.
        apply Huniq; [apply list_elem_of_here | by apply list_elem_of_further | done].
      * rewrite Hother.
        -- rewrite Henv, Hsnap, Hh. by rewrite decide_True.
        -- intros r1 Hr1 Heq. apply Hnin. apply list_elem_of_fmap. eauto.
    + intros k Hk. rewrite Hother.
      * rewrite Henv, Hsnap, Hh. rewrite decide_False; [done|].
        intros ->. by apply (Hk r0 (list_elem_of_here _ _)).
      * intros r Hr. apply Hk. by apply list_elem_of_further.
Qed.

(** The [restore] pass over aggregates whose copy is their present state:
    it returns and every aggregate is as it was. *)
Lemma restore_pass vs s (h : ref → Aggregate Content) :
  full_snapshots adapter snap →
  (∀ r, heap (env s) r = h r) →
  (∀ r, r ∈ vs → snap (storage (env s)) (Root.id (root (h r))) = Some (h r)) →
  let out := for_each vs (λ r, invoke (CallRestore r) (restore_impl adapter r)) s in
  out.2 = Ok tt ∧ (∀ r, heap (env out.1) r = h r).
Proof.
  intros contract. cbn zeta.
  revert s. induction vs as [|r0 vs IH]; intros s Hh Hkept; [done|].
  rewrite for_each_cons.
  assert (Hcopy : snap (storage (env s)) (Root.id (root (heap (env s) r0)))
                  = Some (h r0)).
  { rewrite Hh. apply Hkept, list_elem_of_here. }
  destruct (restore_reproduces _ _ contract r0 (env s) (h r0) Hcopy)
    as (e' & He' & Hheap & Hsnap).
  set (s' := (invoke (CallRestore r0) (restore_impl adapter r0) s).1).
  assert (Henv : env s' = e')
    by (unfold s'; by rewrite invoke_env, He').
  rewrite invoke_result, He'. cbn [snd]. apply IH.
  - intros r. rewrite Henv, Hheap. destruct (decide (r = r0)) as [->|?]; [done|].
    apply Hh.
  - intros r Hr. rewrite Henv, Hsnap. apply Hkept. by apply list_elem_of_further.
Qed.

(** C4, as the code has it.  With a medium that keeps full copies per
    identifier, when no two distinct tracked aggregates carry the same
    identifier, [commit] followed at once by [rollback] returns both times
    and leaves every aggregate, tracked or not, exactly as it was before
    the [commit]; the identity map is unchanged too. *)
Theorem commit_rollback_round_trip s :
  full_snapshots adapter snap →
  (∀ r1 r2, r1 ∈ dict_values (aggregates s) → r2 ∈ dict_values (aggregates s) →
            Root.id (root (heap (env s) r1)) = Root.id (root (heap (env s) r2)) →
            r1 = r2) →
  let s1 := (commit adapter s).1 in
  let s2 := (rollback adapter s1).1 in
  completes (commit adapter s)
  ∧ completes (rollback adapter s1)
  ∧ (∀ r, heap (env s2) r = heap (env s) r)
  ∧ round_trip adapter s
  ∧ aggregates s2 = aggregates s.
Proof.
  intros contract Huniq s1 s2.
  destruct (store_pass (dict_values (aggregates s)) s (heap (env s)) contract)
    as (Hres & Hheap & Hkept & _); [done | |].
  { intros r1 r2 H1 H2 Hid. by rewrite (Huniq r1 r2 H1 H2 Hid). }
  assert (Ha1 : aggregates s1 = aggregates s)
    by apply (run_aggregates adapter Commit s).
  destruct (restore_pass (dict_values (aggregates s1)) s1 (heap (env s)) contract)
    as (Hres' & Hheap'); [exact Hheap | rewrite Ha1; exact Hkept |].
  split_and!.
  - exact Hres.
  - exact Hres'.
  - exact Hheap'.
  - intros r _. apply Hheap'.
  - subst s2. rewrite <-Ha1. apply (run_aggregates adapter Rollback s1).
Qed.
End RoundTrip.

(** The in-memory double is such a medium. *)
Lemma snapshot_adapter_full_snapshots {Content : Type} :
  full_snapshots (@snapshot_adapter Content) (λ st k, st !! k).
Proof.
  split.
  - intros r e. eexists. split; [reflexivity|]. split; [done|].
    intros k. cbn [storage]. rewrite lookup_insert.
    destruct (decide (k = Root.id (root (heap e r)))) as [->|Hne].
    + by rewrite decide_True.
    + by rewrite decide_False by congruence.
  - intros r e a Ha. cbn [snapshot_adapter restore_impl]. rewrite Ha.
    eexists. split; [reflexivity|]. split; [|done].
    intros r'. cbn [heap]. unfold insert, fn_insert.
    destruct (decide (r = r')) as [->|Hne].
    + by rewrite decide_True.
    + by rewrite decide_False by congruence.
Qed.

Lemma commit_rollback_round_trip_witness :
  round_trip snapshot_adapter sample_state.
Proof.
  refine (proj1 (proj2 (proj2 (proj2
    (commit_rollback_round_trip snapshot_adapter (λ st k, st !! k) sample_state
       snapshot_adapter_full_snapshots _))))).
  intros r1 r2 H1 H2.
  change (dict_values (aggregates sample_state)) with [0; 1] in H1, H2.
  apply elem_of_cons in H1 as [->|H1]; [|apply list_elem_of_singleton in H1 as ->];
    (apply elem_of_cons in H2 as [->|H2]; [|apply list_elem_of_singleton in H2 as ->]);
    vm_compute; congruence.
Defined.

(** C4, as the specification states it, does not hold of the code.  The
    medium keeps full copies per identifier, two aggregates are tracked
    under the keys ["x"] and ["y"], and the second was given the identifier
    ["x"] after it was added.  [commit] stores both under ["x"], the second
    copy replacing the first, and [rollback] then overwrites the first
    aggregate with the state of the second. *)
Lemma round_trip_fails_on_shared_identifier :
  full_snapshots (@snapshot_adapter nat) (λ st k, st !! k)
  ∧ aggregates alias_state = [(Some "x"%string, 0); (Some "y"%string, 1)]
  ∧ completes (commit snapshot_adapter alias_state)
  ∧ completes (rollback snapshot_adapter (commit snapshot_adapter alias_state).1)
  ∧ content (heap (env alias_state) 0) = 0
  ∧ content (heap (env (rollback snapshot_adapter
                          (commit snapshot_adapter alias_state).1).1) 0) = 1
  ∧ ¬ round_trip snapshot_adapter alias_state.
Proof.
  split_and!.
  - apply snapshot_adapter_full_snapshots.
  - reflexivity.
  - vm_compute. reflexivity.
  - vm_compute. reflexivity.
  - reflexivity.
  - vm_compute. reflexivity.
  - intros H.
    assert (Hin : 0 ∈ dict_values (aggregates alias_state))
      by apply list_elem_of_here.
    apply H in Hin. apply (f_equal content) in Hin.
    vm_compute in Hin. discriminate Hin.
Qed.

(** ** Two runs *)

(** Add ["order-1"] in state 5, [commit], change it to 7, [rollback]: it
    reads 5 again. *)
Example commit_mutate_rollback :
  let s1 := (commit snapshot_adapter (add 0 (new order_env)).1).1 in
  let s2 := set_content 0 7 s1 in
  let s3 := (rollback snapshot_adapter s2).1 in
  content (heap (env s2) 0) = 7 ∧ content (heap (env s3) 0) = 5.
Proof. split; vm_compute; reflexivity. Qed.

(** Add an aggregate ["x"], then another instance with the same
    identifier: one entry, and [commit] stores the second instance, once. *)
Example add_twice_same_identifier :
  let s := (add 1 (add 0 (new same_id_env)).1).1 in
  aggregates s = [(Some "x"%string, 1)]
  ∧ commit snapshot_adapter s
    = ({| aggregates := aggregates s; env := env (commit snapshot_adapter s).1;
          calls := [CallStore 1] |}, Ok tt).
Proof. split; reflexivity. Qed.

(** * Further properties of the coordinator *)

(** ** [add] *)

Section MoreDict.
Implicit Types (d : dict) (k : Ident) (v r a b : ref).

Lemma dict_setitem_setitem k v1 v2 d :
  dict_setitem k v2 (dict_setitem k v1 d) = dict_setitem k v2 d.
Proof.
  induction d as [|[k0 v0] d IH]; cbn [dict_setitem].
  - by rewrite decide_True.
  - destruct (decide (k0 = k)) as [->|Hne]; cbn [dict_setitem].
    + by rewrite decide_True.
    + rewrite decide_False by done. by rewrite IH.
Qed.

Lemma occurrences_setitem_other k a b d :
  a ≠ b →
  occurrences a (dict_values (dict_setitem k b d))
  + (if decide (dict_get k d = Some a) then 1 else 0)
  = occurrences a (dict_values d).
Proof.
  intros Hab. unfold dict_values. induction d as [|[k0 v0] d IH].
  - cbn [dict_setitem dict_get]. rewrite fmap_cons, occurrences_cons.
    cbn [snd]. rewrite decide_False by congruence. by case_decide.
  - cbn [dict_setitem dict_get]. destruct (decide (k0 = k)) as [->|Hk0].
    + rewrite !fmap_cons, !occurrences_cons. cbn [snd].
      rewrite (decide_False (P := b = a)) by congruence.
      destruct (decide (v0 = a)) as [->|Hv].
      * rewrite decide_True by done. lia.
      * rewrite decide_False by congruence. lia.
    + rewrite !fmap_cons, !occurrences_cons. lia.
Qed.

Lemma occurrences_zero {A} `{EqDecision A} (x : A) (l : list A) :
  occurrences x l = 0 → x ∉ l.
Proof.
  induction l as [|y l IH]; [intros _; apply not_elem_of_nil|].
  rewrite occurrences_cons, not_elem_of_cons.
  destruct (decide (y = x)) as [->|Hne]; [lia|].
  intros H. split; [congruence | apply IH; lia].
Qed.

Lemma elem_of_values_setitem k v x d :
  x ∈ dict_values (dict_setitem k v d) → x = v ∨ x ∈ dict_values d.
Proof.
  unfold dict_values. induction d as [|[k0 v0] d IH]; cbn [dict_setitem].
  - intros ->%list_elem_of_singleton. by left.
  - destruct (decide (k0 = k)) as [->|Hne]; rewrite !fmap_cons; cbn [snd].
    + intros [->|Hx]%elem_of_cons; [by left | right; by apply list_elem_of_further].
    + intros [->|Hx]%elem_of_cons; [right; apply list_elem_of_here|].
      destruct (IH Hx) as [->|Hin]; [by left | right; by apply list_elem_of_further].
Qed.

Lemma NoDup_keys_setitem k v d :
  NoDup (dict_keys d) → NoDup (dict_keys (dict_setitem k v d)).
Proof.
  intros Hd. rewrite dict_keys_setitem. case_decide as Hk; [done|].
  apply NoDup_app. split_and!; [done | | apply NoDup_singleton].
  intros x Hx ->%list_elem_of_singleton. by apply Hk.
Qed.
End MoreDict.

Section Add.
Context {Content Storage : Type}.
Implicit Types (s : State Content Storage).

(** X1.  [add] is an insertion that can be read back: it returns, the
    identifier of the aggregate is then bound to it, every other key is
    bound as before, a key that was present keeps its place and the size,
    a new key goes to the end and the size grows by one; the aggregates,
    the storage medium and the calls made so far are untouched. *)
Theorem add_binds_key (r : ref) s :
  let k := Root.id (root (heap (env s) r)) in
  let d := aggregates s in
  let out := add r s in
  out.2 = Ok tt
  ∧ dict_get k (aggregates out.1) = Some r
  ∧ (∀ k', k' ≠ k → dict_get k' (aggregates out.1) = dict_get k' d)
  ∧ dict_keys (aggregates out.1)
    = (if decide (k ∈ dict_keys d) then dict_keys d else dict_keys d ++ [k])
  ∧ dict_len (aggregates out.1)
    = (if decide (k ∈ dict_keys d) then dict_len d else S (dict_len d))
  ∧ env out.1 = env s
  ∧ calls out.1 = calls s.
Proof.
  intros k d out. subst out. unfold add. cbn [fst snd aggregates env calls].
  fold k d. split_and!; try done.
  - rewrite dict_get_setitem. by rewrite decide_True.
  - intros k' Hk'. rewrite dict_get_setitem. by rewrite decide_False.
  - apply dict_keys_setitem.
  - apply dict_len_setitem.
Qed.

(** X2.  Two [add] calls in a row for aggregates with the same identifier
    leave the coordinator exactly as the second call alone would: the first
    aggregate is dropped and the entry stays where the identifier was (or
    goes where it would have gone).  Adding the same aggregate twice is
    adding it once. *)
Theorem add_again_is_last_add (a b : ref) s :
  Root.id (root (heap (env s) a)) = Root.id (root (heap (env s) b)) →
  add b (add a s).1 = add b s ∧ add a (add a s).1 = add a s.
Proof.
  intros Hid. unfold add. cbn [fst aggregates env calls].
  split; f_equal; f_equal.
  - rewrite Hid. apply dict_setitem_setitem.
  - apply dict_setitem_setitem.
Qed.

(** X3.  An aggregate that is replaced is no longer tracked: when [a] is
    the value of the key that [b] carries, and of no other key, then after
    [add b] the aggregate [a] is not among the values of the identity map,
    and a [commit] or [rollback] that returns does not invoke it. *)
Theorem add_replaces_and_untracks (adapter : Adapter Content Storage) (a b : ref) s :
  a ≠ b →
  dict_get (Root.id (root (heap (env s) b))) (aggregates s) = Some a →
  occurrences a (dict_values (aggregates s)) = 1 →
  let s' := (add b s).1 in
  dict_get (Root.id (root (heap (env s) b))) (aggregates s') = Some b
  ∧ (a ∉ dict_values (aggregates s'))
  ∧ dict_len (aggregates s') = dict_len (aggregates s)
  ∧ (∀ op, completes (run adapter op s') →
           call_of op a ∉ calls_since s' (run adapter op s').1).
Proof.
  intros Hab Hget Hocc s'.
  assert (Hs' : aggregates s'
                = dict_setitem (Root.id (root (heap (env s) b))) b (aggregates s))
    by done.
  assert (Hout : occurrences a (dict_values (aggregates s')) = 0).
  { pose proof (occurrences_setitem_other
                  (Root.id (root (heap (env s) b))) a b (aggregates s) Hab) as H.
    rewrite decide_True in H by done. rewrite Hs'. lia. }
  split_and!.
  - rewrite Hs', dict_get_setitem. by rewrite decide_True.
  - by apply occurrences_zero.
  - rewrite Hs', dict_len_setitem. rewrite decide_True; [done|].
    unfold dict_keys. apply list_elem_of_fmap.
    exists (Root.id (root (heap (env s) b)), a).
    split; [done | by apply dict_get_Some_elem].
  - intros op Hc. apply occurrences_zero.
    rewrite (run_calls_complete adapter op s' Hc).
    by rewrite occurrences_fmap_call_of.
Qed.

(** X4.  The order of two [add] calls for aggregates with different
    identifiers does not matter for what each key is bound to, nor for the
    size of the identity map (it matters only for the iteration order). *)
Theorem add_add_lookup_commute (a b : ref) s :
  Root.id (root (heap (env s) a)) ≠ Root.id (root (heap (env s) b)) →
  let sab := (add b (add a s).1).1 in
  let sba := (add a (add b s).1).1 in
  (∀ k, dict_get k (aggregates sab) = dict_get k (aggregates sba))
  ∧ dict_len (aggregates sab) = dict_len (aggregates sba).
Proof.
  intros Hne sab sba. subst sab sba. unfold add. cbn [fst aggregates env].
  set (ka := Root.id (root (heap (env s) a))) in *.
  set (kb := Root.id (root (heap (env s) b))) in *.
  split.
  - intros k. rewrite !dict_get_setitem.
    destruct (decide (kb = k)) as [<-|?]; [by rewrite decide_False|done].
  - rewrite !dict_len_setitem, !dict_keys_setitem.
    assert (Hl : ∀ (x y : Ident) (l : list Ident), x ≠ y → x ∈ l ++ [y] ↔ x ∈ l).
    { intros x y l Hxy. rewrite elem_of_app, list_elem_of_singleton.
      split; [by intros [?|?] | by left]. }
    destruct (decide (ka ∈ dict_keys (aggregates s))) as [Ha|Ha];
      destruct (decide (kb ∈ dict_keys (aggregates s))) as [Hb|Hb];
      repeat case_decide; try done;
      rewrite ?Hl in * by done; rewrite ?Hl in * by (by intros ?); done.
Qed.
End Add.

(** ** [commit] and [rollback] *)


Section MoreBatch.
Context {Content Storage : Type}.
Implicit Types (s : State Content Storage) (adapter : Adapter Content Storage).


(** X5.  What a [commit] or [rollback] does, in full.  Either the adapter
    does not fail on the tracked aggregates: then the operation returns, it
    has invoked the adapter once per entry, in iteration order, each call
    working in the environment that the calls before it left.  Or the
    entries split at the first aggregate whose call raises, the calls on
    the aggregates before it having returned: then the operation raises
    the exception of that call, the calls made are those up to and
    including that aggregate, and the environment is what that call left,
    so that the work of the calls before it is not undone. *)
Theorem batch_outcome adapter op s :
  let vs := dict_values (aggregates s) in
  let out := run adapter op s in
  (returns_on adapter op vs (env s)
   ∧ completes out
   ∧ calls_since s out.1 = call_of op <$> vs
   ∧ env out.1 = thread adapter op vs (env s))
  ∨ (∃ pre r post x,
       vs = pre ++ r :: post
       ∧ returns_on adapter op pre (env s)
       ∧ impl_of adapter op r (thread adapter op pre (env s)) = (env out.1, Raise x)
       ∧ out.2 = Raise x
       ∧ calls_since s out.1 = call_of op <$> (pre ++ [r])).
Proof.
  intros vs out.
  destruct (run_cases adapter op s)
    as [(Hall & Hres & Hc & He)
       |(pre & r & post & x & Hvs & Hpre & Hfail & Hres & Hc)].
  - left. split_and!; [done | done | by apply calls_since_app | done].
  - right. exists pre, r, post, x.
    split_and!; [done | done | done | done | by apply calls_since_app].
Qed.


(** X7.  The bodies of [store] and [restore] in the base class do nothing:
    a subclass that only defers to them commits and rolls back without ever
    failing and without any effect on the aggregates or on the storage
    medium; all that happens is one call per entry. *)
Theorem base_bodies_do_nothing (op : Op) s :
  run base_adapter op s
  = ({| aggregates := aggregates s; env := env s;
        calls := calls s ++ (call_of op <$> dict_values (aggregates s)) |}, Ok tt).
Proof.
  rewrite run_loop.
  destruct op; cbn [impl_of base_adapter store_impl restore_impl];
    unfold Repository_store, Repository_restore; apply for_each_base_env.
Qed.
End MoreBatch.

Section Discard.
Context {Content Storage : Type}.
Implicit Types (s : State Content Storage) (e : Env Content Storage)
               (vs : list ref).

Variables (adapter : Adapter Content Storage)
          (snap : Storage → Ident → option (Aggregate Content)).

(** The [restore] pass over aggregates that kept their identifier and whose
    copy is [h]: it returns, the aggregates it went over are as in [h], and
    the others are as they were. *)
Lemma restore_pass_discards vs s (h : ref → Aggregate Content) :
  full_snapshots adapter snap →
  (∀ r, r ∈ vs → Root.id (root (heap (env s) r)) = Root.id (root (h r))) →
  (∀ r, r ∈ vs → snap (storage (env s)) (Root.id (root (h r))) = Some (h r)) →
  let out := for_each vs (λ r, invoke (CallRestore r) (restore_impl adapter r)) s in
  out.2 = Ok tt
  ∧ (∀ r, heap (env out.1) r = if decide (r ∈ vs) then h r else heap (env s) r).
Proof.
  intros contract. cbn zeta.
  revert s. induction vs as [|r0 vs IH]; intros s Hid Hkept.
  - split; [done|]. intros r. rewrite decide_False; [done | apply not_elem_of_nil].
  - rewrite for_each_cons.
    assert (Hcopy : snap (storage (env s)) (Root.id (root (heap (env s) r0)))
                    = Some (h r0)).
    { rewrite Hid by apply list_elem_of_here. apply Hkept, list_elem_of_here. }
    destruct (restore_reproduces _ _ contract r0 (env s) (h r0) Hcopy)
      as (e' & He' & Hheap & Hsnap).
    set (s' := (invoke (CallRestore r0) (restore_impl adapter r0) s).1).
    assert (Henv : env s' = e') by (unfold s'; by rewrite invoke_env, He').
    rewrite invoke_result, He'. cbn [snd].
    destruct (IH s') as [Hres Hout].
    + intros r Hr. rewrite Henv, Hheap.
      destruct (decide (r = r0)) as [->|?]; [done|].
      apply Hid. by apply list_elem_of_further.
    + intros r Hr. rewrite Henv, Hsnap. apply Hkept. by apply list_elem_of_further.
    + split; [exact Hres|]. intros r. rewrite Hout, Henv, Hheap.
      destruct (decide (r ∈ vs)) as [Hin|Hnin].
      * rewrite decide_True; [done | by apply list_elem_of_further].
      * destruct (decide (r = r0)) as [->|Hne].
        -- rewrite decide_True; [done | apply list_elem_of_here].
        -- rewrite decide_False; [done|]. rewrite not_elem_of_cons. by split.
Qed.

(** X8.  [rollback] discards what happened since the [commit].  With a
    medium that keeps full copies per identifier and tracked aggregates
    that carry distinct identifiers: after a [commit], let the aggregates
    change in any way that keeps the identifier of the tracked ones and
    the copies of the medium; then [rollback] returns, every tracked
    aggregate is again as it was at the [commit], and the aggregates that
    are not tracked keep their changes. *)
Theorem rollback_discards_changes s e :
  full_snapshots adapter snap →
  (∀ r1 r2, r1 ∈ dict_values (aggregates s) → r2 ∈ dict_values (aggregates s) →
            Root.id (root (heap (env s) r1)) = Root.id (root (heap (env s) r2)) →
            r1 = r2) →
  let s1 := (commit adapter s).1 in
  (∀ k, snap (storage e) k = snap (storage (env s1)) k) →
  (∀ r, r ∈ dict_values (aggregates s) →
        Root.id (root (heap e r)) = Root.id (root (heap (env s) r))) →
  let out := rollback adapter (with_env e s1) in
  completes out
  ∧ (∀ r, heap (env out.1) r =
          if decide (r ∈ dict_values (aggregates s)) then heap (env s) r
          else heap e r).
Proof.
  intros contract Huniq s1 Hsnap Hid out.
  destruct (store_pass adapter snap (dict_values (aggregates s)) s (heap (env s))
              contract) as (_ & _ & Hkept & _); [done | |].
  { intros r1 r2 H1 H2 Hk. by rewrite (Huniq r1 r2 H1 H2 Hk). }
  assert (Ha1 : aggregates s1 = aggregates s)
    by apply (run_aggregates adapter Commit s).
  destruct (restore_pass_discards (dict_values (aggregates s)) (with_env e s1)
              (heap (env s)) contract) as [Hres Hout].
  - intros r Hr. cbn [with_env env]. by apply Hid.
  - intros r Hr. cbn [with_env env]. rewrite Hsnap. by apply Hkept.
  - subst out. unfold rollback, completes. cbn [with_env aggregates].
    rewrite Ha1. split; [exact Hres | exact Hout].
Qed.
End Discard.

(** ** Sessions *)

Section SessionInvariant.
Context {Content Storage : Type}.
Implicit Types (s : State Content Storage) (adapter : Adapter Content Storage).

Lemma call_target_call_of op r : call_target (call_of op r) = r.
Proof. by destruct op. Qed.

Lemma session_keeps adapter (acts : list Action) s (A : list ref) :
  NoDup (dict_keys (aggregates s)) →
  (∀ r, r ∈ dict_values (aggregates s) → r ∈ A) →
  dict_len (aggregates s) ≤ length A →
  (∀ c, c ∈ calls s → call_target c ∈ A) →
  let s' := session adapter acts s in
  NoDup (dict_keys (aggregates s'))
  ∧ (∀ r, r ∈ dict_values (aggregates s') → r ∈ A ++ added acts)
  ∧ dict_len (aggregates s') ≤ length (A ++ added acts)
  ∧ (∀ c, c ∈ calls s' → call_target c ∈ A ++ added acts).
Proof.
  cbn zeta. revert s A.
  induction acts as [|a acts IH]; intros s A Hnd Hv Hl Hc.
  - cbn [session added]. rewrite app_nil_r. done.
  - cbn [session]. destruct a as [r|op|e]; cbn [perform added].
    + replace (A ++ r :: added acts) with ((A ++ [r]) ++ added acts)
        by (by rewrite <-app_assoc).
      apply IH; unfold add; cbn [fst aggregates calls].
      * by apply NoDup_keys_setitem.
      * intros x [->|Hx]%elem_of_values_setitem; apply elem_of_app;
          [right; apply list_elem_of_here | left; by apply Hv].
      * rewrite dict_len_setitem, length_app. simpl. case_decide; lia.
      * intros c Hin. apply elem_of_app. left. by apply Hc.
    + apply IH.
      * by rewrite run_aggregates.
      * by rewrite run_aggregates.
      * by rewrite run_aggregates.
      * rewrite run_loop.
        destruct (for_each_calls_prefix (call_of op) (impl_of adapter op)
                    (dict_values (aggregates s)) s) as (n & _ & ->).
        intros c [Hin|Hin]%elem_of_app; [by apply Hc|].
        apply list_elem_of_fmap in Hin as (r & -> & Hr).
        rewrite call_target_call_of. apply Hv.
        by apply (subseteq_take n (dict_values (aggregates s))).
    + by apply IH.
Qed.

(** X9.  Whatever a caller does with a coordinator from its construction
    on ([add], [commit] and [rollback] that return or raise, changes of the
    aggregates and of the medium in between): the identity map never has
    two entries for one identifier, it tracks only aggregates that were
    passed to [add] and no more entries than there were [add] calls, and
    [store] and [restore] were only ever invoked on aggregates that were
    passed to [add]. *)
Theorem session_invariant adapter (acts : list Action) (e0 : Env Content Storage) :
  let s := session adapter acts (new e0) in
  NoDup (dict_keys (aggregates s))
  ∧ (∀ r, r ∈ dict_values (aggregates s) → r ∈ added acts)
  ∧ dict_len (aggregates s) ≤ length (added acts)
  ∧ (∀ c, c ∈ calls s → call_target c ∈ added acts).
Proof.
  apply (session_keeps adapter acts (new e0) []); cbn [new aggregates calls].
  - constructor.
  - by intros r ?%elem_of_nil.
  - done.
  - by intros c ?%elem_of_nil.
Qed.
End SessionInvariant.

(** ** Instances *)

Lemma add_again_is_last_add_witness :
  add 1 (add 0 (new same_id_env)).1 = add 1 (new same_id_env).
Proof.
  exact (proj1 (add_again_is_last_add 0 1 (new same_id_env) eq_refl)).
Defined.

Lemma add_replaces_and_untracks_witness :
  let s := (add 0 (new same_id_env)).1 in
  dict_values (aggregates s) = [0]
  ∧ (0 ∉ dict_values (aggregates (add 1 s).1)).
Proof.
  intros s. split; [reflexivity|].
  assert (H1 : 0 ≠ 1) by discriminate.
  assert (H2 : dict_get (Root.id (root (heap (env s) 1))) (aggregates s) = Some 0)
    by reflexivity.
  assert (H3 : occurrences 0 (dict_values (aggregates s)) = 1) by reflexivity.
  exact (proj1 (proj2 (add_replaces_and_untracks snapshot_adapter 0 1 s H1 H2 H3))).
Defined.

Lemma add_add_lookup_commute_witness :
  dict_get (Some "x"%string) (aggregates (add 1 (add 0 (new sample_env)).1).1)
  = dict_get (Some "x"%string) (aggregates (add 0 (add 1 (new sample_env)).1).1)
  ∧ dict_len (aggregates (add 1 (add 0 (new sample_env)).1).1)
    = dict_len (aggregates (add 0 (add 1 (new sample_env)).1).1).
Proof.
  assert (H : Root.id (root (heap (env (new sample_env)) 0))
              ≠ Root.id (root (heap (env (new sample_env)) 1)))
    by (vm_compute; discriminate).
  destruct (add_add_lookup_commute 0 1 (new sample_env) H) as [Hget Hlen].
  split; [exact (Hget (Some "x"%string)) | exact Hlen].
Defined.


Lemma sample_state_distinct_identifiers :
  ∀ r1 r2, r1 ∈ dict_values (aggregates sample_state) →
           r2 ∈ dict_values (aggregates sample_state) →
           Root.id (root (heap (env sample_state) r1))
           = Root.id (root (heap (env sample_state) r2)) →
           r1 = r2.
Proof.
  intros r1 r2 H1 H2.
  change (dict_values (aggregates sample_state)) with [0; 1] in H1, H2.
  apply elem_of_cons in H1 as [->|H1]; [|apply list_elem_of_singleton in H1 as ->];
    (apply elem_of_cons in H2 as [->|H2]; [|apply list_elem_of_singleton in H2 as ->]);
    vm_compute; congruence.
Defined.

Lemma rollback_discards_changes_witness :
  let s1 := (commit snapshot_adapter sample_state).1 in
  let s2 := set_content 0 7 s1 in
  content (heap (env s2) 0) = 7
  ∧ heap (env (rollback snapshot_adapter s2).1) 0 = heap (env sample_state) 0.
Proof.
  intros s1 s2. split; [reflexivity|].
  assert (Hsnap : ∀ k, storage (env s2) !! k = storage (env s1) !! k)
    by (intros k; reflexivity).
  assert (Hid : ∀ r, r ∈ dict_values (aggregates sample_state) →
                     Root.id (root (heap (env s2) r))
                     = Root.id (root (heap (env sample_state) r))).
  { intros r Hr. change (dict_values (aggregates sample_state)) with [0; 1] in Hr.
    apply elem_of_cons in Hr as [->|Hr]; [|apply list_elem_of_singleton in Hr as ->];
      reflexivity. }
  destruct (rollback_discards_changes snapshot_adapter (λ st k, st !! k)
              sample_state (env s2) snapshot_adapter_full_snapshots
              sample_state_distinct_identifiers Hsnap Hid) as [_ H].
  exact (H 0).
Defined.

(** [rollback] surfaces the first failure only: the medium fails for the
    first tracked aggregate, the second was never stored, and the caller
    sees the failure of the medium, not a [NotFoundError]. *)
Example rollback_surfaces_first_failure :
  (restore_impl (faulty_adapter 0) 1 (env sample_state)).2 = Raise NotFoundError
  ∧ (rollback (faulty_adapter 0) sample_state).2 = Raise StorageFailure.
Proof. split; vm_compute; reflexivity. Qed.
